(** * Physics-backend abstraction layer: base engine contract, contact
      registry and the Bullet joint stubs

    Shallow embedding of
    - [src/physics/PhysicsEngine.hh]: the inline members of the abstract
      class [gazebo::physics::PhysicsEngine] ([Reset], [UpdatePhysics], the
      ODE parameter setters and getters, [GetRayMutex], [OnRequest],
      [OnPhysicsMsg], [AddLinkPair], [AreTouching]);
    - [src/physics/bullet/BulletJoint.hh]: the inline members of
      [gazebo::physics::BulletJoint] that the Bullet backend leaves
      unimplemented.

    Member functions are written in a small state monad over the object
    they are called on: a [void] member returns [tt], a getter returns its
    value, and both return the object as they leave it. *)

From Stdlib Require Import NArith ZArith Floats.PrimFloat.
From stdpp Require Import gmap strings.

Set Default Proof Using "Type".

(** ** Methods as state transformers *)

Definition Method (S A : Type) : Type := S → A * S.

Definition ret {S A} (a : A) : Method S A := λ this, (a, this).

Definition bind {S A B} (k : A → Method S B) (m : Method S A) : Method S B :=
  λ this, let '(a, this') := m this in k a this'.

(** stdpp's notations [x ← m; k] and [m;; k] for sequencing. *)
#[global] Instance Method_ret {S} : MRet (Method S) := @ret S.
#[global] Instance Method_bind {S} : MBind (Method S) := @bind S.
#[global] Instance Method_fmap {S} : FMap (Method S) :=
  λ A B f m, a ← m; ret (f a).

Definition gets {S A} (f : S → A) : Method S A := λ this, (f this, this).

Definition modify {S} (f : S → S) : Method S unit := λ this, (tt, f this).

(** The value a call returns, and the object after the call. *)
Definition eval {S A} (m : Method S A) (this : S) : A := fst (m this).
Definition exec {S A} (m : Method S A) (this : S) : S := snd (m this).

(** ** [std::map]

    The three members of [std::map<K, V>] the engine uses.  An iterator is
    the mapped value it points at ([it->second]); [None] is [end()]. *)
Module std_map.
Section std_map.
Context `{Countable K} {V : Type}.

Definition find (m : gmap K V) (k : K) : option V := m !! k.

(** [m.insert(std::make_pair(k, v))] keeps an entry that is already
    there. *)
Definition insert (kv : K * V) (m : gmap K V) : gmap K V :=
  match m !! kv.1 with
  | Some _ => m
  | None => <[kv.1 := kv.2]> m
  end.
End std_map.
End std_map.

(** ** [gazebo::physics::PhysicsEngine] *)

(** A [double]. *)
Abbreviation double := float.

(** Shared and raw pointers are the address they hold; [0] is the null
    pointer.  Two [LinkPtr] are the same key of [contactPairs], and equal
    under [!=], exactly when they hold the same address (a [Link] has one
    owner group, so the owner-based order of the map and the address
    comparison of [!=] agree). *)
Abbreviation ptr := N.
Abbreviation LinkPtr := N.

Record PhysicsEngine : Type := mkPhysicsEngine {
  world : ptr;
  sdf : ptr;
  node : ptr;
  responsePub : ptr;
  physicsSub : ptr;
  requestSub : ptr;
  rayMutex : ptr;
  contactPairs : gmap N N
}.

Definition set_contactPairs (f : gmap N N → gmap N N)
    (this : PhysicsEngine) : PhysicsEngine :=
  {| world := world this; sdf := sdf this; node := node this;
     responsePub := responsePub this; physicsSub := physicsSub this;
     requestSub := requestSub this; rayMutex := rayMutex this;
     contactPairs := f (contactPairs this) |}.

Definition Reset : Method PhysicsEngine unit := ret tt.

Definition UpdatePhysics : Method PhysicsEngine unit := ret tt.

Definition SetWorldCFM (_ : double) : Method PhysicsEngine unit := ret tt.
Definition SetWorldERP (_ : double) : Method PhysicsEngine unit := ret tt.
Definition SetAutoDisableFlag (_ : bool) : Method PhysicsEngine unit := ret tt.
(** The argument is an [unsigned int]. *)
Definition SetSORPGSIters (_ : N) : Method PhysicsEngine unit := ret tt.
Definition SetSORPGSW (_ : double) : Method PhysicsEngine unit := ret tt.
Definition SetContactMaxCorrectingVel (_ : double) : Method PhysicsEngine unit :=
  ret tt.
Definition SetContactSurfaceLayer (_ : double) : Method PhysicsEngine unit :=
  ret tt.
Definition SetMaxContacts (_ : double) : Method PhysicsEngine unit := ret tt.

(** [return 0] at the return types [double], [bool] and [int]. *)
Definition GetWorldCFM : Method PhysicsEngine double := ret 0%float.
Definition GetWorldERP : Method PhysicsEngine double := ret 0%float.
Definition GetAutoDisableFlag : Method PhysicsEngine bool := ret false.
Definition GetSORPGSIters : Method PhysicsEngine Z := ret 0%Z.
Definition GetSORPGSW : Method PhysicsEngine double := ret 0%float.
Definition GetContactMaxCorrectingVel : Method PhysicsEngine double :=
  ret 0%float.
Definition GetContactSurfaceLayer : Method PhysicsEngine double := ret 0%float.
Definition GetMaxContacts : Method PhysicsEngine Z := ret 0%Z.

Definition GetRayMutex : Method PhysicsEngine ptr := gets rayMutex.

(** The messages are not looked at. *)
Definition OnRequest (_msg : ptr) : Method PhysicsEngine unit := ret tt.
Definition OnPhysicsMsg (_msg : ptr) : Method PhysicsEngine unit := ret tt.

(** keep a map of both directions, easier to search later *)
Definition AddLinkPair (link1 link2 : LinkPtr) : Method PhysicsEngine unit :=
  it1 ← gets (λ this, std_map.find (contactPairs this) link1);
  (if decide (it1 = None)
   then modify (set_contactPairs (std_map.insert (link1, link2)))
   else ret tt);;
  it2 ← gets (λ this, std_map.find (contactPairs this) link2);
  (if decide (it2 = None)
   then modify (set_contactPairs (std_map.insert (link2, link1)))
   else ret tt).

(** [||] is evaluated left to right and stops at the first true operand,
    so [->second] is read only from an iterator that is not [end()]. *)
Definition AreTouching (link1 link2 : LinkPtr) : Method PhysicsEngine bool :=
  it1 ← gets (λ this, std_map.find (contactPairs this) link1);
  it2 ← gets (λ this, std_map.find (contactPairs this) link2);
  if (match it1 with None => true | Some second => negb (second =? link2)%N end)
     && (match it2 with None => true | Some second => negb (second =? link1)%N end)
  then ret false
  else ret true.

(** A run of [AddLinkPair] calls, first call first. *)
Fixpoint AddLinkPairs (calls : list (LinkPtr * LinkPtr))
    (this : PhysicsEngine) : PhysicsEngine :=
  match calls with
  | [] => this
  | (link1, link2) :: calls' =>
      AddLinkPairs calls' (exec (AddLinkPair link1 link2) this)
  end.

(** The registry states that [AddLinkPair] calls build from an empty
    registry. *)
Definition reachable (this : PhysicsEngine) : Prop :=
  ∃ this0 calls, contactPairs this0 = ∅ ∧ this = AddLinkPairs calls this0.

(** Every recorded partner is itself a key: the invariant of the registry. *)
Definition partners_are_keys (m : gmap N N) : Prop :=
  ∀ k partner, m !! k = Some partner → is_Some (m !! partner).

(** An engine that owns an empty registry, the start of the concrete runs
    below. *)
Definition engine0 : PhysicsEngine :=
  {| world := 0; sdf := 0; node := 0; responsePub := 0; physicsSub := 0;
     requestSub := 0; rayMutex := 0; contactPairs := ∅ |}.

(** The links that a run of [AddLinkPair] calls mentions, in call order. *)
Definition links_of (calls : list (LinkPtr * LinkPtr)) : list LinkPtr :=
  flat_map (λ call, [call.1; call.2]) calls.

(** A call of one of the inline members of the base class that return
    nothing. *)
Inductive BaseCall : Type :=
  | CallReset
  | CallUpdatePhysics
  | CallSetWorldCFM (cfm : double)
  | CallSetWorldERP (erp : double)
  | CallSetAutoDisableFlag (autoDisable : bool)
  | CallSetSORPGSIters (iters : N)
  | CallSetSORPGSW (w : double)
  | CallSetContactMaxCorrectingVel (vel : double)
  | CallSetContactSurfaceLayer (layerDepth : double)
  | CallSetMaxContacts (maxContacts : double)
  | CallOnRequest (msg : ptr)
  | CallOnPhysicsMsg (msg : ptr)
  | CallAddLinkPair (link1 link2 : LinkPtr).

Definition base_call (c : BaseCall) : Method PhysicsEngine unit :=
  match c with
  | CallReset => Reset
  | CallUpdatePhysics => UpdatePhysics
  | CallSetWorldCFM cfm => SetWorldCFM cfm
  | CallSetWorldERP erp => SetWorldERP erp
  | CallSetAutoDisableFlag autoDisable => SetAutoDisableFlag autoDisable
  | CallSetSORPGSIters iters => SetSORPGSIters iters
  | CallSetSORPGSW w => SetSORPGSW w
  | CallSetContactMaxCorrectingVel vel => SetContactMaxCorrectingVel vel
  | CallSetContactSurfaceLayer layerDepth => SetContactSurfaceLayer layerDepth
  | CallSetMaxContacts maxContacts => SetMaxContacts maxContacts
  | CallOnRequest msg => OnRequest msg
  | CallOnPhysicsMsg msg => OnPhysicsMsg msg
  | CallAddLinkPair link1 link2 => AddLinkPair link1 link2
  end.

(** A run of such calls, first call first. *)
Fixpoint base_calls (calls : list BaseCall) (this : PhysicsEngine) :
    PhysicsEngine :=
  match calls with
  | [] => this
  | c :: calls' => base_calls calls' (exec (base_call c) this)
  end.

(** The [AddLinkPair] calls of a run, in order. *)
Fixpoint pairs_of (calls : list BaseCall) : list (LinkPtr * LinkPtr) :=
  match calls with
  | [] => []
  | CallAddLinkPair link1 link2 :: calls' => (link1, link2) :: pairs_of calls'
  | _ :: calls' => pairs_of calls'
  end.

(** ** [gazebo::math::Vector3] *)
Module math.

Record Vector3 : Type := mkVector3 { x : double; y : double; z : double }.

(** Modelled from the spec: [math/Vector3.hh] is not among the sources.
    The default constructor [math::Vector3()] gives the zero vector, the
    "plausible-looking default such as a zero vector" that the stub
    methods return. *)
Definition Vector3_default : Vector3 :=
  {| x := 0%float; y := 0%float; z := 0%float |}.

End math.

(** ** [gazebo::physics::BulletJoint] *)
Module Bullet.
Import math.

Inductive JointType : Type := revolute | prismatic | fixed | universal | ball.

Inductive AttachState : Type := unattached | attached | detached.

(** [Joint::Attribute], the type of the first argument of [SetAttribute],
    is an enumeration of [Joint.hh], which is not among the sources; an
    attribute is the integer of its enumerator. *)
Definition Attribute : Type := Z.

(** Modelled from the spec: [Joint.hh], the base class, is not among the
    sources.  Its state is the JointModel of the data model: the joint type,
    the two links (a null link is the world frame), the anchor and the
    damping coefficient of each axis, the error-reduction and
    constraint-force-mixing parameters, and the attached/detached state. *)
Record Joint : Type := mkJoint {
  type : JointType;
  parentLink : LinkPtr;
  childLink : LinkPtr;
  anchors : list Vector3;
  damping : list double;
  erp : double;
  cfm : double;
  state : AttachState
}.

(** The base-class part and the two members the class declares. *)
Record BulletJoint : Type := mkBulletJoint {
  base : Joint;
  constraint : ptr;
  world : ptr
}.

(** A member function runs on its joint and on the error console of the
    process. *)
Record Env : Type := mkEnv {
  this_joint : BulletJoint;
  console_err : list string
}.

(** Modelled from the spec: [common/Console.hh] is not among the sources.
    [gzerr << msg] adds [msg] to what the error console has received (the
    unsupported-feature signal is "logged for diagnosis"); the joint is not
    touched. *)
Definition gzerr (msg : string) : Method Env unit :=
  modify (λ env, {| this_joint := this_joint env;
                    console_err := console_err env ++ [msg] |}).

(** ["Not implement in Bullet\n"] *)
Definition not_implemented : string :=
  String.append "Not implement in Bullet" (String (Ascii.ascii_of_nat 10) EmptyString).

Definition Reset : Method Env unit := ret tt.

Definition SetAnchor (_index : Z) (_anchor : Vector3) : Method Env unit :=
  gzerr not_implemented.

Definition SetDamping (_index : Z) (_damping : double) : Method Env unit :=
  gzerr not_implemented.

Definition GetAnchor (index : Z) : Method Env Vector3 :=
  gzerr not_implemented;;
  ret Vector3_default.

(** The index is an [unsigned int]. *)
Definition GetLinkForce (index : N) : Method Env Vector3 :=
  gzerr not_implemented;;
  ret Vector3_default.

Definition GetLinkTorque (index : N) : Method Env Vector3 :=
  gzerr not_implemented;;
  ret Vector3_default.

Definition SetAttribute (_ : Attribute) (index : Z) (value : double) :
    Method Env unit :=
  gzerr not_implemented.

(** A revolute joint attached to links 1 and 2, with a silent console: the
    concrete input of the examples below. *)
Definition env0 : Env :=
  {| this_joint :=
       {| base := {| type := revolute; parentLink := 1; childLink := 2;
                     anchors := [{| x := 1; y := 2; z := 3 |}];
                     damping := [0%float]; erp := 0; cfm := 0;
                     state := attached |};
          constraint := 4; world := 5 |};
     console_err := [] |}.

(** A call of one of the inline members of the joint. *)
Inductive Call : Type :=
  | CallReset
  | CallSetAnchor (index : Z) (anchor : Vector3)
  | CallSetDamping (index : Z) (damping : double)
  | CallGetAnchor (index : Z)
  | CallGetLinkForce (index : N)
  | CallGetLinkTorque (index : N)
  | CallSetAttribute (attr : Attribute) (index : Z) (value : double).

(** The call, with the vector it returns if it returns one. *)
Definition call (c : Call) : Method Env (option Vector3) :=
  match c with
  | CallReset => Reset;; ret None
  | CallSetAnchor index anchor => SetAnchor index anchor;; ret None
  | CallSetDamping index damping => SetDamping index damping;; ret None
  | CallGetAnchor index => Some <$> GetAnchor index
  | CallGetLinkForce index => Some <$> GetLinkForce index
  | CallGetLinkTorque index => Some <$> GetLinkTorque index
  | CallSetAttribute attr index value => SetAttribute attr index value;; ret None
  end.

(** A run of calls, first call first, with what the calls return. *)
Fixpoint calls (cs : list Call) : Method Env (list (option Vector3)) :=
  match cs with
  | [] => ret []
  | c :: cs' => r ← call c; rs ← calls cs'; ret (r :: rs)
  end.

(** The calls of a run that write to the error console: all but [Reset]. *)
Definition logs (c : Call) : bool :=
  match c with CallReset => false | _ => true end.

End Bullet.

(** * Properties *)

(** ** [std::map] *)
Section std_map_facts.
Context `{Countable K} {V : Type}.
Implicit Types (m : gmap K V) (k : K) (v : V).

Lemma lookup_std_insert k v m k' :
  std_map.insert (k, v) m !! k' =
  match m !! k' with
  | Some w => Some w
  | None => if decide (k' = k) then Some v else None
  end.
Proof.
  unfold std_map.insert; simpl.
  destruct (m !! k) as [w|] eqn:Ek.
  - destruct (m !! k') eqn:Ek'; [done|].
    case_decide; [congruence | done].
  - rewrite lookup_insert. case_decide as Hk.
    + subst k'. rewrite Ek. by rewrite decide_True.
    + rewrite decide_False by congruence. by destruct (m !! k').
Qed.

Lemma std_insert_present k v m : is_Some (m !! k) → std_map.insert (k, v) m = m.
Proof. intros [w E]. unfold std_map.insert; simpl. by rewrite E. Qed.

Lemma std_insert_commute k1 v1 k2 v2 m :
  k1 ≠ k2 →
  std_map.insert (k1, v1) (std_map.insert (k2, v2) m)
  = std_map.insert (k2, v2) (std_map.insert (k1, v1) m).
Proof.
  intros Hne. apply map_eq; intros k. rewrite !lookup_std_insert.
  destruct (m !! k); [done|].
  repeat case_decide; congruence.
Qed.
End std_map_facts.

(** ** The contact registry *)

(** What a call of [AddLinkPair] leaves: the registry gets the entry of
    [link1] unless it has one, then the entry of [link2] unless it has one;
    the other members are as before. *)
Lemma AddLinkPair_exec (link1 link2 : LinkPtr) (this : PhysicsEngine) :
  exec (AddLinkPair link1 link2) this
  = set_contactPairs
      (λ m, std_map.insert (link2, link1) (std_map.insert (link1, link2) m)) this.
Proof.
  destruct this as [w s n r p q x m].
  unfold AddLinkPair, exec, mbind, Method_bind, bind, gets, modify, ret,
    set_contactPairs, std_map.find; simpl.
  destruct (decide (m !! link1 = None)) as [E1|E1]; simpl.
  - destruct (decide (_ !! link2 = None)) as [E2|E2]; simpl; [done|].
    f_equal. symmetry. apply std_insert_present.
    by destruct (_ !! link2).
  - assert (std_map.insert (link1, link2) m = m) as ->.
    { apply std_insert_present. by destruct (m !! link1). }
    destruct (decide (m !! link2 = None)) as [E2|E2]; simpl; [done|].
    f_equal. symmetry. apply std_insert_present. by destruct (m !! link2).
Qed.

Lemma lookup_AddLinkPair (link1 link2 k : LinkPtr) (this : PhysicsEngine) :
  contactPairs (exec (AddLinkPair link1 link2) this) !! k =
  match contactPairs this !! k with
  | Some partner => Some partner
  | None =>
      if decide (k = link1) then Some link2
      else if decide (k = link2) then Some link1 else None
  end.
Proof.
  rewrite AddLinkPair_exec. destruct this as [w s n r p q x m]; simpl.
  rewrite !lookup_std_insert. destruct (m !! k); [done|].
  by repeat case_decide.
Qed.

(** [AreTouching] reads the registry and changes nothing. *)
Lemma AreTouching_exec (link1 link2 : LinkPtr) (this : PhysicsEngine) :
  exec (AreTouching link1 link2) this = this.
Proof.
  unfold AreTouching, exec, mbind, Method_bind, bind, gets, ret; simpl.
  by destruct (_ && _).
Qed.

Lemma AreTouching_true (link1 link2 : LinkPtr) (this : PhysicsEngine) :
  eval (AreTouching link1 link2) this = true
  ↔ contactPairs this !! link1 = Some link2
    ∨ contactPairs this !! link2 = Some link1.
Proof.
  unfold AreTouching, eval, mbind, Method_bind, bind, gets, ret,
    std_map.find; simpl.
  destruct (contactPairs this !! link1) as [p1|] eqn:E1;
    destruct (contactPairs this !! link2) as [p2|] eqn:E2; simpl.
  all: repeat match goal with
       | |- context [(?a =? ?b)%N] => destruct (N.eqb_spec a b); simpl
       end.
  all: split; [intros ?| intros [?|?]]; try done; try congruence.
  all: try (left; congruence); try (right; congruence).
Qed.

Lemma AreTouching_false (link1 link2 : LinkPtr) (this : PhysicsEngine) :
  eval (AreTouching link1 link2) this = false
  ↔ contactPairs this !! link1 ≠ Some link2
    ∧ contactPairs this !! link2 ≠ Some link1.
Proof.
  rewrite <- not_true_iff_false, AreTouching_true. tauto.
Qed.

(** After [AddLinkPair link1 link2], both links are keys of the registry. *)
Lemma AddLinkPair_keys (link1 link2 : LinkPtr) (this : PhysicsEngine) :
  is_Some (contactPairs (exec (AddLinkPair link1 link2) this) !! link1)
  ∧ is_Some (contactPairs (exec (AddLinkPair link1 link2) this) !! link2).
Proof.
  rewrite !lookup_AddLinkPair. split.
  - destruct (contactPairs this !! link1); [done|].
    by rewrite decide_True.
  - destruct (contactPairs this !! link2); [done|].
    by repeat case_decide.
Qed.

(** A call on two links that are keys already changes nothing. *)
Lemma AddLinkPair_noop (link1 link2 : LinkPtr) (this : PhysicsEngine) :
  is_Some (contactPairs this !! link1) →
  is_Some (contactPairs this !! link2) →
  exec (AddLinkPair link1 link2) this = this.
Proof.
  intros H1 H2. rewrite AddLinkPair_exec.
  destruct this as [w s n r p q x m]; simpl in *.
  unfold set_contactPairs; simpl.
  by rewrite (std_insert_present link1), (std_insert_present link2).
Qed.

(** Keys are never removed, and the partner of a key never changes. *)
Lemma AddLinkPair_keeps (link1 link2 k partner : LinkPtr) (this : PhysicsEngine) :
  contactPairs this !! k = Some partner →
  contactPairs (exec (AddLinkPair link1 link2) this) !! k = Some partner.
Proof. intros E. by rewrite lookup_AddLinkPair, E. Qed.

Lemma reachable_AddLinkPairs (calls : list (LinkPtr * LinkPtr)) :
  reachable (AddLinkPairs calls engine0).
Proof. by exists engine0, calls. Qed.

Lemma reachable_AddLinkPair (link1 link2 : LinkPtr) (this : PhysicsEngine) :
  reachable this → reachable (exec (AddLinkPair link1 link2) this).
Proof.
  intros (this0 & calls & Hempty & ->).
  exists this0, (calls ++ [(link1, link2)]). split; [done|].
  clear Hempty. revert this0.
  induction calls as [|[a b] calls IH]; intros this0; simpl; [done|].
  apply IH.
Qed.

(** *** C2 *)

(** C2, as stated, fails: links 1 and 2 are distinct, the registry built by
    [AddLinkPair(1,3)] and [AddLinkPair(2,4)] is reachable, and after
    [AddLinkPair(1,2)] on it [AreTouching(1,2)] and [AreTouching(2,1)]
    return false, since both links keep the partner they had. *)
Lemma AddLinkPair_not_touching_when_both_taken :
  let this := AddLinkPairs [(1, 3); (2, 4)]%N engine0 in
  reachable this ∧ (1 ≠ 2)%N
  ∧ eval (AreTouching 1 2) (exec (AddLinkPair 1 2) this) = false
  ∧ eval (AreTouching 2 1) (exec (AddLinkPair 1 2) this) = false.
Proof.
  split; [apply reachable_AddLinkPairs|].
  split; [done|]. split; vm_compute; reflexivity.
Qed.

(** C2, amended: for all links a and b and every registry state in which a
    or b either is not a key of [contactPairs] or already has the other as
    its partner, immediately after [AddLinkPair(a,b)] both
    [AreTouching(a,b)] and [AreTouching(b,a)] return true. *)
Theorem AddLinkPair_touching (a b : LinkPtr) (this : PhysicsEngine) :
  contactPairs this !! a = None ∨ contactPairs this !! a = Some b
  ∨ contactPairs this !! b = None ∨ contactPairs this !! b = Some a →
  eval (AreTouching a b) (exec (AddLinkPair a b) this) = true
  ∧ eval (AreTouching b a) (exec (AddLinkPair a b) this) = true.
Proof.
  intros Hfree.
  assert (contactPairs (exec (AddLinkPair a b) this) !! a = Some b
          ∨ contactPairs (exec (AddLinkPair a b) this) !! b = Some a) as Hin.
  { rewrite !lookup_AddLinkPair.
    destruct Hfree as [E|[E|[E|E]]]; rewrite E.
    - left. by rewrite decide_True.
    - by left.
    - right. repeat case_decide; congruence.
    - by right. }
  split; apply AreTouching_true; tauto.
Qed.

Lemma AddLinkPair_touching_witness :
  let this := AddLinkPairs [(1, 3)]%N engine0 in
  (contactPairs this !! 1%N = None ∨ contactPairs this !! 1%N = Some 2%N
   ∨ contactPairs this !! 2%N = None ∨ contactPairs this !! 2%N = Some 1%N)
  ∧ eval (AreTouching 1 2) (exec (AddLinkPair 1 2) this) = true
  ∧ eval (AreTouching 2 1) (exec (AddLinkPair 1 2) this) = true.
Proof.
  split.
  - right; right; left. vm_compute. reflexivity.
  - apply (AddLinkPair_touching 1 2 (AddLinkPairs [(1, 3)]%N engine0)).
    right; right; left. vm_compute. reflexivity.
Defined.

(** The condition of the amended C2 is also necessary: when both links
    are keys with other partners, the call is void and they are not
    reported as touching. *)
Lemma AddLinkPair_touching_only_if (a b : LinkPtr) (this : PhysicsEngine) :
  eval (AreTouching a b) (exec (AddLinkPair a b) this) = true →
  contactPairs this !! a = None ∨ contactPairs this !! a = Some b
  ∨ contactPairs this !! b = None ∨ contactPairs this !! b = Some a.
Proof.
  rewrite AreTouching_true, !lookup_AddLinkPair.
  destruct (contactPairs this !! a) as [pa|]; [|tauto].
  destruct (contactPairs this !! b) as [pb|]; [|tauto].
  intros [?|?]; simplify_eq; tauto.
Qed.

(** *** C3 *)

Lemma partners_are_keys_AddLinkPair (link1 link2 : LinkPtr) (this : PhysicsEngine) :
  partners_are_keys (contactPairs this) →
  partners_are_keys (contactPairs (exec (AddLinkPair link1 link2) this)).
Proof.
  intros Hinv k partner Hk.
  destruct (AddLinkPair_keys link1 link2 this) as [Hk1 Hk2].
  rewrite lookup_AddLinkPair in Hk.
  destruct (contactPairs this !! k) as [old|] eqn:Eold.
  - simplify_eq. destruct (Hinv _ _ Eold) as [c Hc].
    exists c. by apply AddLinkPair_keeps.
  - repeat case_decide; by simplify_eq.
Qed.

Lemma partners_are_keys_AddLinkPairs (calls : list (LinkPtr * LinkPtr))
    (this : PhysicsEngine) :
  partners_are_keys (contactPairs this) →
  partners_are_keys (contactPairs (AddLinkPairs calls this)).
Proof.
  revert this. induction calls as [|[link1 link2] calls IH]; intros this Hinv.
  - done.
  - simpl. by apply IH, partners_are_keys_AddLinkPair.
Qed.

(** C3, as stated, fails: after [AddLinkPair(1,2)] and [AddLinkPair(1,3)]
    from the empty registry the entry 3→1 is present and the entry 1→3 is
    not, link 1 keeping its first partner 2. *)
Lemma AddLinkPair_entry_without_symmetric :
  let this := AddLinkPairs [(1, 2); (1, 3)]%N engine0 in
  reachable this
  ∧ contactPairs this !! 3%N = Some 1%N
  ∧ contactPairs this !! 1%N ≠ Some 3%N.
Proof.
  split; [apply reachable_AddLinkPairs|].
  split; vm_compute; [reflexivity | discriminate].
Qed.

(** C3, amended: in every registry state reachable from the empty registry
    by [AddLinkPair] calls, if a directed entry A→B is present in the
    contact map then B is a key of the map too (an entry B→C is present,
    where C need not be A), and [AreTouching(B,A)] returns true. *)
Theorem reachable_partner_is_key (this : PhysicsEngine) (A B : LinkPtr) :
  reachable this →
  contactPairs this !! A = Some B →
  is_Some (contactPairs this !! B) ∧ eval (AreTouching B A) this = true.
Proof.
  intros (this0 & calls & Hempty & ->) HAB. split.
  - eapply partners_are_keys_AddLinkPairs; [|exact HAB].
    rewrite Hempty. intros k partner Hk. by rewrite lookup_empty in Hk.
  - apply AreTouching_true. by right.
Qed.

Lemma reachable_partner_is_key_witness :
  let this := AddLinkPairs [(1, 2); (1, 3)]%N engine0 in
  reachable this ∧ contactPairs this !! 3%N = Some 1%N
  ∧ is_Some (contactPairs this !! 1%N) ∧ eval (AreTouching 1 3) this = true.
Proof.
  split; [apply reachable_AddLinkPairs|].
  split; [vm_compute; reflexivity|].
  apply (reachable_partner_is_key (AddLinkPairs [(1, 2); (1, 3)]%N engine0) 3 1).
  - apply reachable_AddLinkPairs.
  - vm_compute; reflexivity.
Defined.

(** The symmetric entry is there when the calls never reuse a link: a call
    on two links that are both new keeps a symmetric registry symmetric. *)
Lemma AddLinkPair_fresh_symmetric (link1 link2 : LinkPtr) (this : PhysicsEngine) :
  contactPairs this !! link1 = None →
  contactPairs this !! link2 = None →
  (∀ a b, contactPairs this !! a = Some b → contactPairs this !! b = Some a) →
  ∀ a b, contactPairs (exec (AddLinkPair link1 link2) this) !! a = Some b →
         contactPairs (exec (AddLinkPair link1 link2) this) !! b = Some a.
Proof.
  intros E1 E2 Hsym a b. rewrite !lookup_AddLinkPair.
  destruct (contactPairs this !! a) as [pa|] eqn:Ea.
  - intros ?; simplify_eq. by rewrite (Hsym _ _ Ea).
  - destruct (contactPairs this !! b) as [pb|] eqn:Eb.
    + repeat case_decide; intros ?; simplify_eq.
    + repeat case_decide; intros ?; simplify_eq; done.
Qed.

(** *** C4 *)

(** C4: calling [AddLinkPair(a,b)] twice in succession leaves exactly the
    engine, and so the [contactPairs] map, that one call leaves. *)
Theorem AddLinkPair_idempotent (a b : LinkPtr) (this : PhysicsEngine) :
  exec (AddLinkPair a b) (exec (AddLinkPair a b) this)
  = exec (AddLinkPair a b) this.
Proof.
  destruct (AddLinkPair_keys a b this) as [Ha Hb].
  by apply AddLinkPair_noop.
Qed.

(** *** C5 *)

(** Every entry of the registry that a run of calls leaves was there
    before the run or comes from a call on its two links. *)
Lemma AddLinkPairs_entry_from_call (calls : list (LinkPtr * LinkPtr))
    (this : PhysicsEngine) (k partner : LinkPtr) :
  contactPairs (AddLinkPairs calls this) !! k = Some partner →
  contactPairs this !! k = Some partner
  ∨ (k, partner) ∈ calls ∨ (partner, k) ∈ calls.
Proof.
  revert this. induction calls as [|[link1 link2] calls IH]; intros this; simpl.
  - by left.
  - intros Hk. destruct (IH _ Hk) as [Hnow|[Hin|Hin]].
    + rewrite lookup_AddLinkPair in Hnow.
      destruct (contactPairs this !! k) as [old|]; [by left|].
      right. repeat case_decide; simplify_eq.
      * left. apply list_elem_of_here.
      * right. apply list_elem_of_here.
    + right; left. by apply list_elem_of_further.
    + right; right. by apply list_elem_of_further.
Qed.

(** C5: if, since the registry was empty, no [AddLinkPair] call had a and b
    as its two arguments, in either order, then [AreTouching(a,b)] returns
    false. *)
Theorem AreTouching_never_added (calls : list (LinkPtr * LinkPtr))
    (this0 : PhysicsEngine) (a b : LinkPtr) :
  contactPairs this0 = ∅ →
  (a, b) ∉ calls →
  (b, a) ∉ calls →
  eval (AreTouching a b) (AddLinkPairs calls this0) = false.
Proof.
  intros Hempty Hab Hba. apply AreTouching_false. split; intros Hin.
  all: apply AddLinkPairs_entry_from_call in Hin as [Hin|[Hin|Hin]]; try done.
  all: by rewrite Hempty, lookup_empty in Hin.
Qed.

Lemma AreTouching_never_added_witness :
  contactPairs engine0 = ∅
  ∧ ((1, 3)%N ∉ ([(1, 2); (2, 3); (4, 1)]%N : list (N * N)))
  ∧ ((3, 1)%N ∉ ([(1, 2); (2, 3); (4, 1)]%N : list (N * N)))
  ∧ eval (AreTouching 1 3) (AddLinkPairs [(1, 2); (2, 3); (4, 1)]%N engine0)
    = false.
Proof.
  assert ((1, 3)%N ∉ ([(1, 2); (2, 3); (4, 1)]%N : list (N * N))) as H13
    by (apply not_elem_of_cons; split; [discriminate|];
        apply not_elem_of_cons; split; [discriminate|];
        apply not_elem_of_cons; split; [discriminate|];
        apply not_elem_of_nil).
  assert ((3, 1)%N ∉ ([(1, 2); (2, 3); (4, 1)]%N : list (N * N))) as H31
    by (apply not_elem_of_cons; split; [discriminate|];
        apply not_elem_of_cons; split; [discriminate|];
        apply not_elem_of_cons; split; [discriminate|];
        apply not_elem_of_nil).
  split; [reflexivity|]. split; [exact H13|]. split; [exact H31|].
  apply (AreTouching_never_added [(1, 2); (2, 3); (4, 1)]%N engine0 1 3);
    [reflexivity | exact H13 | exact H31].
Defined.

(** *** C9 *)

(** C9: [AddLinkPair(a,b)] and [AddLinkPair(b,a)] leave the same engine,
    and so the same [contactPairs] map. *)
Theorem AddLinkPair_comm (a b : LinkPtr) (this : PhysicsEngine) :
  exec (AddLinkPair a b) this = exec (AddLinkPair b a) this.
Proof.
  rewrite !AddLinkPair_exec. unfold set_contactPairs. f_equal.
  destruct (decide (a = b)) as [->|Hne]; [done|].
  by apply std_insert_commute.
Qed.

(** *** C10 *)

(** C10: a link that is a key of [contactPairs] has the same partner before
    and after any [AddLinkPair(x,y)] call. *)
Theorem AddLinkPair_never_overwrites (x y k partner : LinkPtr)
    (this : PhysicsEngine) :
  contactPairs this !! k = Some partner →
  contactPairs (exec (AddLinkPair x y) this) !! k = Some partner.
Proof. apply AddLinkPair_keeps. Qed.

Lemma AddLinkPair_never_overwrites_witness :
  let this := AddLinkPairs [(1, 2)]%N engine0 in
  contactPairs this !! 1%N = Some 2%N
  ∧ contactPairs (exec (AddLinkPair 1 3) this) !! 1%N = Some 2%N.
Proof.
  split; [vm_compute; reflexivity|].
  apply (AddLinkPair_never_overwrites 1 3 1 2 (AddLinkPairs [(1, 2)]%N engine0)).
  vm_compute; reflexivity.
Defined.

(** A partner is set once: through any run of calls a key keeps it. *)
Lemma AddLinkPairs_keeps (calls : list (LinkPtr * LinkPtr)) (k partner : LinkPtr)
    (this : PhysicsEngine) :
  contactPairs this !! k = Some partner →
  contactPairs (AddLinkPairs calls this) !! k = Some partner.
Proof.
  revert this. induction calls as [|[x y] calls IH]; intros this Hk; simpl.
  - done.
  - by apply IH, AddLinkPair_keeps.
Qed.

(** ** The permissive base contract of the engine parameters *)

(** C6: each getter of the base class returns the neutral default of its
    parameter: 0 for the numbers, false for the auto-disable flag. *)
Theorem base_getters_default (this : PhysicsEngine) :
  eval GetWorldCFM this = 0%float
  ∧ eval GetWorldERP this = 0%float
  ∧ eval GetAutoDisableFlag this = false
  ∧ eval GetSORPGSIters this = 0%Z
  ∧ eval GetSORPGSW this = 0%float
  ∧ eval GetContactMaxCorrectingVel this = 0%float
  ∧ eval GetContactSurfaceLayer this = 0%float
  ∧ eval GetMaxContacts this = 0%Z.
Proof. repeat split. Qed.

(** The getters do not change the engine either. *)
Lemma base_getters_pure (this : PhysicsEngine) :
  exec GetWorldCFM this = this ∧ exec GetWorldERP this = this
  ∧ exec GetAutoDisableFlag this = this ∧ exec GetSORPGSIters this = this
  ∧ exec GetSORPGSW this = this ∧ exec GetContactMaxCorrectingVel this = this
  ∧ exec GetContactSurfaceLayer this = this ∧ exec GetMaxContacts this = this.
Proof. repeat split. Qed.

(** C7: each setter of the base class, on every argument, returns normally
    and leaves the engine as it was, and the getter of the parameter returns
    after the call what it returned before. *)
Theorem base_setters_ignored (this : PhysicsEngine)
    (cfm erp w vel layerDepth maxContacts : double) (autoDisable : bool)
    (iters : N) :
  (SetWorldCFM cfm this = (tt, this)
   ∧ eval (SetWorldCFM cfm;; GetWorldCFM) this = eval GetWorldCFM this)
  ∧ (SetWorldERP erp this = (tt, this)
     ∧ eval (SetWorldERP erp;; GetWorldERP) this = eval GetWorldERP this)
  ∧ (SetAutoDisableFlag autoDisable this = (tt, this)
     ∧ eval (SetAutoDisableFlag autoDisable;; GetAutoDisableFlag) this
       = eval GetAutoDisableFlag this)
  ∧ (SetSORPGSIters iters this = (tt, this)
     ∧ eval (SetSORPGSIters iters;; GetSORPGSIters) this
       = eval GetSORPGSIters this)
  ∧ (SetSORPGSW w this = (tt, this)
     ∧ eval (SetSORPGSW w;; GetSORPGSW) this = eval GetSORPGSW this)
  ∧ (SetContactMaxCorrectingVel vel this = (tt, this)
     ∧ eval (SetContactMaxCorrectingVel vel;; GetContactMaxCorrectingVel) this
       = eval GetContactMaxCorrectingVel this)
  ∧ (SetContactSurfaceLayer layerDepth this = (tt, this)
     ∧ eval (SetContactSurfaceLayer layerDepth;; GetContactSurfaceLayer) this
       = eval GetContactSurfaceLayer this)
  ∧ (SetMaxContacts maxContacts this = (tt, this)
     ∧ eval (SetMaxContacts maxContacts;; GetMaxContacts) this
       = eval GetMaxContacts this).
Proof. repeat split. Qed.

(** C8: [Reset] and [UpdatePhysics] of the base class return with the
    engine, every member of it, as it was. *)
Theorem Reset_UpdatePhysics_noop (this : PhysicsEngine) :
  Reset this = (tt, this) ∧ UpdatePhysics this = (tt, this).
Proof. split; reflexivity. Qed.

(** ** The unsupported operations of the Bullet joint *)

(** C1, as stated, fails: on a joint whose anchor is at (1, 2, 3),
    [GetAnchor(0)], [GetLinkForce(0)] and [GetLinkTorque(0)] return the zero
    vector, a value that a joint anchored at the origin, or one that applies
    no force, would return too. *)
Lemma Bullet_getters_return_zero_vector :
  eval (Bullet.GetAnchor 0) Bullet.env0 = math.mkVector3 0 0 0
  ∧ eval (Bullet.GetLinkForce 0) Bullet.env0 = math.mkVector3 0 0 0
  ∧ eval (Bullet.GetLinkTorque 0) Bullet.env0 = math.mkVector3 0 0 0.
Proof. repeat split. Qed.

(** C1, amended: each of [SetAnchor], [GetAnchor], [SetDamping],
    [GetLinkForce], [GetLinkTorque] and [SetAttribute] writes the line
    "Not implement in Bullet" to the error console and does not alter the
    joint; the three setters return nothing, and the three getters return
    the default-constructed vector, the zero vector, whatever the joint and
    the index are. *)
Theorem Bullet_unsupported_operations (env : Bullet.Env) (index : Z)
    (body : N) (anchor : math.Vector3) (damping value : double)
    (attr : Bullet.Attribute) :
  let logged :=
    {| Bullet.this_joint := Bullet.this_joint env;
       Bullet.console_err := Bullet.console_err env ++ [Bullet.not_implemented] |} in
  Bullet.SetAnchor index anchor env = (tt, logged)
  ∧ Bullet.SetDamping index damping env = (tt, logged)
  ∧ Bullet.SetAttribute attr index value env = (tt, logged)
  ∧ Bullet.GetAnchor index env = (math.mkVector3 0 0 0, logged)
  ∧ Bullet.GetLinkForce body env = (math.mkVector3 0 0 0, logged)
  ∧ Bullet.GetLinkTorque body env = (math.mkVector3 0 0 0, logged).
Proof. repeat split. Qed.

(** * Further properties of the contact registry *)

(** X1: [AreTouching] does not depend on the order of its arguments. *)
Theorem AreTouching_symmetric (a b : LinkPtr) (this : PhysicsEngine) :
  eval (AreTouching a b) this = eval (AreTouching b a) this.
Proof.
  destruct (eval (AreTouching b a) this) eqn:E.
  - apply AreTouching_true. apply AreTouching_true in E. tauto.
  - apply AreTouching_false. apply AreTouching_false in E. tauto.
Qed.

(** X2: [AreTouching(a,b)] returns true exactly when the registry holds the
    entry a→b or the entry b→a, and it leaves the engine as it was. *)
Theorem AreTouching_iff_entry (a b : LinkPtr) (this : PhysicsEngine) :
  (eval (AreTouching a b) this = true
   ↔ contactPairs this !! a = Some b ∨ contactPairs this !! b = Some a)
  ∧ exec (AreTouching a b) this = this.
Proof. split; [apply AreTouching_true | apply AreTouching_exec]. Qed.

Lemma dom_AddLinkPair (a b : LinkPtr) (this : PhysicsEngine) :
  dom (contactPairs (exec (AddLinkPair a b) this))
  = {[a; b]} ∪ dom (contactPairs this).
Proof.
  apply set_eq; intros k.
  rewrite elem_of_union, elem_of_union, !elem_of_singleton, !elem_of_dom.
  rewrite lookup_AddLinkPair.
  destruct (contactPairs this !! k) as [p|] eqn:E.
  - split; [intros _; right; done | done].
  - repeat case_decide; split; try done; tauto.
Qed.

(** X3: [AddLinkPair(a,b)] makes a and b keys and adds no other key. *)
Theorem AddLinkPair_dom (a b : LinkPtr) (this : PhysicsEngine) :
  dom (contactPairs (exec (AddLinkPair a b) this))
  = {[a; b]} ∪ dom (contactPairs this).
Proof. apply dom_AddLinkPair. Qed.

Lemma AddLinkPair_lookup_other (x y k : LinkPtr) (this : PhysicsEngine) :
  k ≠ x → k ≠ y →
  contactPairs (exec (AddLinkPair x y) this) !! k = contactPairs this !! k.
Proof.
  intros Hx Hy. rewrite lookup_AddLinkPair.
  destruct (contactPairs this !! k); [done|].
  by rewrite !decide_False.
Qed.

Lemma not_elem_of_links_of_cons (k x y : LinkPtr) (calls : list (LinkPtr * LinkPtr)) :
  k ∉ links_of ((x, y) :: calls) ↔ k ≠ x ∧ k ≠ y ∧ k ∉ links_of calls.
Proof.
  unfold links_of; simpl. rewrite !not_elem_of_cons. tauto.
Qed.

Lemma links_of_app (l1 l2 : list (LinkPtr * LinkPtr)) :
  links_of (l1 ++ l2) = links_of l1 ++ links_of l2.
Proof. unfold links_of. apply flat_map_app. Qed.

Lemma AddLinkPairs_app (l1 l2 : list (LinkPtr * LinkPtr)) (this : PhysicsEngine) :
  AddLinkPairs (l1 ++ l2) this = AddLinkPairs l2 (AddLinkPairs l1 this).
Proof.
  revert this. induction l1 as [|[x y] l1 IH]; intros this; simpl; [done|].
  apply IH.
Qed.

(** A run of calls changes the entry of no link that the calls do not
    mention. *)
Lemma AddLinkPairs_lookup_other (calls : list (LinkPtr * LinkPtr)) (k : LinkPtr)
    (this : PhysicsEngine) :
  k ∉ links_of calls →
  contactPairs (AddLinkPairs calls this) !! k = contactPairs this !! k.
Proof.
  revert this. induction calls as [|[x y] calls IH]; intros this Hk; simpl.
  - done.
  - apply not_elem_of_links_of_cons in Hk as (Hx & Hy & Hk).
    rewrite IH by done. by apply AddLinkPair_lookup_other.
Qed.

(** X4: [AddLinkPair(x,y)] changes the entry of no link other than x and y. *)
Theorem AddLinkPair_frame (x y k : LinkPtr) (this : PhysicsEngine) :
  k ≠ x → k ≠ y →
  contactPairs (exec (AddLinkPair x y) this) !! k = contactPairs this !! k.
Proof. apply AddLinkPair_lookup_other. Qed.

Lemma AddLinkPair_frame_witness :
  (3 ≠ 1)%N ∧ (3 ≠ 2)%N
  ∧ contactPairs (exec (AddLinkPair 1 2) (AddLinkPairs [(3, 4)]%N engine0)) !! 3%N
    = contactPairs (AddLinkPairs [(3, 4)]%N engine0) !! 3%N.
Proof.
  split; [discriminate|]. split; [discriminate|].
  apply (AddLinkPair_frame 1 2 3 (AddLinkPairs [(3, 4)]%N engine0));
    discriminate.
Defined.

(** X5: A link that has no partner gets the other argument of the call as its
    partner, in whichever argument position it is. *)
Theorem AddLinkPair_sets_absent (a b : LinkPtr) (this : PhysicsEngine) :
  contactPairs this !! a = None →
  contactPairs (exec (AddLinkPair a b) this) !! a = Some b
  ∧ contactPairs (exec (AddLinkPair b a) this) !! a = Some b.
Proof.
  intros E. rewrite !lookup_AddLinkPair, E.
  split; repeat case_decide; congruence.
Qed.

Lemma AddLinkPair_sets_absent_witness :
  let this := AddLinkPairs [(2, 4)]%N engine0 in
  contactPairs this !! 1%N = None
  ∧ contactPairs (exec (AddLinkPair 1 2) this) !! 1%N = Some 2%N
  ∧ contactPairs (exec (AddLinkPair 2 1) this) !! 1%N = Some 2%N.
Proof.
  split; [vm_compute; reflexivity|].
  apply (AddLinkPair_sets_absent 1 2 (AddLinkPairs [(2, 4)]%N engine0)).
  vm_compute; reflexivity.
Defined.

Lemma AddLinkPairs_first_call (pre post : list (LinkPtr * LinkPtr))
    (x y a p : LinkPtr) (this : PhysicsEngine) :
  contactPairs this !! a = None →
  a ∉ links_of pre →
  (a = x ∧ p = y) ∨ (a = y ∧ p = x) →
  contactPairs (AddLinkPairs (pre ++ (x, y) :: post) this) !! a = Some p.
Proof.
  intros Hnone Hpre Hcall.
  rewrite AddLinkPairs_app; simpl. apply AddLinkPairs_keeps.
  assert (contactPairs (AddLinkPairs pre this) !! a = None) as Hstill
    by (by rewrite AddLinkPairs_lookup_other).
  rewrite lookup_AddLinkPair, Hstill.
  destruct Hcall as [[-> ->]|[-> ->]]; repeat case_decide; congruence.
Qed.

(** X6: The first call that mentions a link decides its partner for the rest
    of the run: if a has no partner, the calls [pre] do not mention a, and
    the next call pairs a with p (in either argument order), then a has the
    partner p after any further calls [post]. *)
Theorem first_call_decides_partner (pre post : list (LinkPtr * LinkPtr))
    (x y a p : LinkPtr) (this : PhysicsEngine) :
  contactPairs this !! a = None →
  a ∉ links_of pre →
  (a = x ∧ p = y) ∨ (a = y ∧ p = x) →
  contactPairs (AddLinkPairs (pre ++ (x, y) :: post) this) !! a = Some p.
Proof. apply AddLinkPairs_first_call. Qed.

Lemma first_call_decides_partner_witness :
  contactPairs engine0 !! 1%N = None
  ∧ (1%N ∉ links_of [(3, 4)]%N)
  ∧ contactPairs (AddLinkPairs ([(3, 4)] ++ (2, 1) :: [(1, 3); (5, 1)])%N engine0)
      !! 1%N = Some 2%N.
Proof.
  assert (1%N ∉ links_of [(3, 4)]%N) as Hpre
    by (apply not_elem_of_links_of_cons;
        split; [discriminate|]; split; [discriminate|]; apply not_elem_of_nil).
  split; [reflexivity|]. split; [exact Hpre|].
  apply (first_call_decides_partner [(3, 4)]%N [(1, 3); (5, 1)]%N 2 1 1 2 engine0);
    [reflexivity | exact Hpre | right; split; reflexivity].
Defined.

(** X7: No call of [AddLinkPair] undoes a contact: two links that
    [AreTouching] reports as touching are still reported so after any run
    of calls. *)
Theorem AreTouching_stays_true (calls : list (LinkPtr * LinkPtr)) (a b : LinkPtr)
    (this : PhysicsEngine) :
  eval (AreTouching a b) this = true →
  eval (AreTouching a b) (AddLinkPairs calls this) = true.
Proof.
  rewrite !AreTouching_true.
  intros [E|E]; [left|right]; by apply AddLinkPairs_keeps.
Qed.

Lemma AreTouching_stays_true_witness :
  let this := AddLinkPairs [(1, 2)]%N engine0 in
  eval (AreTouching 1 2) this = true
  ∧ eval (AreTouching 1 2) (AddLinkPairs [(1, 3); (2, 4); (2, 1)]%N this) = true.
Proof.
  split; [vm_compute; reflexivity|].
  apply (AreTouching_stays_true [(1, 3); (2, 4); (2, 1)]%N 1 2
           (AddLinkPairs [(1, 2)]%N engine0)).
  vm_compute; reflexivity.
Defined.

(** X8: Calls that mention neither a nor b do not change what
    [AreTouching(a,b)] returns. *)
Theorem AreTouching_frame (calls : list (LinkPtr * LinkPtr)) (a b : LinkPtr)
    (this : PhysicsEngine) :
  a ∉ links_of calls →
  b ∉ links_of calls →
  eval (AreTouching a b) (AddLinkPairs calls this) = eval (AreTouching a b) this.
Proof.
  intros Ha Hb.
  destruct (eval (AreTouching a b) this) eqn:E.
  - apply AreTouching_true. apply AreTouching_true in E.
    by rewrite !AddLinkPairs_lookup_other.
  - apply AreTouching_false. apply AreTouching_false in E.
    by rewrite !AddLinkPairs_lookup_other.
Qed.

Lemma AreTouching_frame_witness :
  (1%N ∉ links_of [(3, 4)]%N) ∧ (2%N ∉ links_of [(3, 4)]%N)
  ∧ eval (AreTouching 1 2) (AddLinkPairs [(3, 4)]%N engine0)
    = eval (AreTouching 1 2) engine0.
Proof.
  assert (1%N ∉ links_of [(3, 4)]%N) as H1
    by (apply not_elem_of_links_of_cons;
        split; [discriminate|]; split; [discriminate|]; apply not_elem_of_nil).
  assert (2%N ∉ links_of [(3, 4)]%N) as H2
    by (apply not_elem_of_links_of_cons;
        split; [discriminate|]; split; [discriminate|]; apply not_elem_of_nil).
  split; [exact H1|]. split; [exact H2|].
  apply (AreTouching_frame [(3, 4)]%N 1 2 engine0); [exact H1 | exact H2].
Defined.

(** X9: The keys of the registry after a run of calls are the keys it had and
    the links that the calls mention. *)
Theorem AddLinkPairs_dom (calls : list (LinkPtr * LinkPtr)) (this : PhysicsEngine) :
  dom (contactPairs (AddLinkPairs calls this))
  = list_to_set (links_of calls) ∪ dom (contactPairs this).
Proof.
  revert this. induction calls as [|[x y] calls IH]; intros this; simpl.
  - unfold links_of; simpl. by rewrite (left_id_L ∅ (∪)).
  - rewrite IH, dom_AddLinkPair. unfold links_of; simpl.
    fold (links_of calls). apply set_eq; intros k.
    rewrite !elem_of_union, !elem_of_singleton. tauto.
Qed.

(** *** Runs that never mention a link twice *)

Lemma no_reuse_entry (calls : list (LinkPtr * LinkPtr)) (this0 : PhysicsEngine)
    (x y : LinkPtr) :
  contactPairs this0 = ∅ →
  NoDup (links_of calls) →
  (x, y) ∈ calls →
  contactPairs (AddLinkPairs calls this0) !! x = Some y
  ∧ contactPairs (AddLinkPairs calls this0) !! y = Some x.
Proof.
  intros Hempty Hnodup Hin.
  apply list_elem_of_split in Hin as (pre & post & ->).
  rewrite links_of_app in Hnodup.
  apply NoDup_app in Hnodup as (_ & Hpre & _).
  assert ((x ∉ links_of pre) ∧ (y ∉ links_of pre)) as [Hx Hy].
  { split; intros Hmem; apply (Hpre _ Hmem); unfold links_of; simpl.
    - apply list_elem_of_here.
    - apply list_elem_of_further, list_elem_of_here. }
  split; apply AddLinkPairs_first_call; try done.
  all: try (by rewrite Hempty, lookup_empty).
  - by left.
  - by right.
Qed.

(** X10: When no link is mentioned twice in the run of calls made since the
    registry was empty, [AreTouching(a,b)] returns true exactly when
    [AddLinkPair(a,b)] or [AddLinkPair(b,a)] was called. *)
Theorem no_reuse_touching_iff_called (calls : list (LinkPtr * LinkPtr))
    (this0 : PhysicsEngine) (a b : LinkPtr) :
  contactPairs this0 = ∅ →
  NoDup (links_of calls) →
  eval (AreTouching a b) (AddLinkPairs calls this0) = true
  ↔ (a, b) ∈ calls ∨ (b, a) ∈ calls.
Proof.
  intros Hempty Hnodup. rewrite AreTouching_true. split.
  - intros [E|E]; apply AddLinkPairs_entry_from_call in E as [E|[E|E]].
    all: try (by rewrite Hempty, lookup_empty in E); tauto.
  - intros [Hin|Hin];
      destruct (no_reuse_entry calls this0 _ _ Hempty Hnodup Hin); tauto.
Qed.

Lemma no_reuse_touching_iff_called_witness :
  contactPairs engine0 = ∅
  ∧ NoDup (links_of [(1, 2); (3, 4)]%N)
  ∧ (eval (AreTouching 2 1) (AddLinkPairs [(1, 2); (3, 4)]%N engine0) = true
     ↔ (2, 1)%N ∈ ([(1, 2); (3, 4)]%N : list (N * N))
       ∨ (1, 2)%N ∈ ([(1, 2); (3, 4)]%N : list (N * N))).
Proof.
  assert (NoDup (links_of [(1, 2); (3, 4)]%N)) as Hnodup
    by (apply (bool_decide_unpack _); vm_compute; exact I).
  split; [reflexivity|]. split; [exact Hnodup|].
  apply (no_reuse_touching_iff_called [(1, 2); (3, 4)]%N engine0 2 1);
    [reflexivity | exact Hnodup].
Defined.

(** X11: Under the same discipline the registry is symmetric: with an entry
    A→B it holds the entry B→A. *)
Theorem no_reuse_symmetric (calls : list (LinkPtr * LinkPtr))
    (this0 : PhysicsEngine) (A B : LinkPtr) :
  contactPairs this0 = ∅ →
  NoDup (links_of calls) →
  contactPairs (AddLinkPairs calls this0) !! A = Some B →
  contactPairs (AddLinkPairs calls this0) !! B = Some A.
Proof.
  intros Hempty Hnodup E.
  apply AddLinkPairs_entry_from_call in E as [E|[Hin|Hin]].
  - by rewrite Hempty, lookup_empty in E.
  - by destruct (no_reuse_entry calls this0 _ _ Hempty Hnodup Hin).
  - by destruct (no_reuse_entry calls this0 _ _ Hempty Hnodup Hin).
Qed.

Lemma no_reuse_symmetric_witness :
  contactPairs engine0 = ∅
  ∧ NoDup (links_of [(1, 2); (3, 4)]%N)
  ∧ contactPairs (AddLinkPairs [(1, 2); (3, 4)]%N engine0) !! 4%N = Some 3%N
  ∧ contactPairs (AddLinkPairs [(1, 2); (3, 4)]%N engine0) !! 3%N = Some 4%N.
Proof.
  assert (NoDup (links_of [(1, 2); (3, 4)]%N)) as Hnodup
    by (apply (bool_decide_unpack _); vm_compute; exact I).
  split; [reflexivity|]. split; [exact Hnodup|].
  split; [vm_compute; reflexivity|].
  apply (no_reuse_symmetric [(1, 2); (3, 4)]%N engine0 4 3);
    [reflexivity | exact Hnodup | vm_compute; reflexivity].
Defined.

(** X12: Calls on two pairs that share no link commute. *)
Theorem AddLinkPair_disjoint_comm (a b c d : LinkPtr) (this : PhysicsEngine) :
  a ≠ c → a ≠ d → b ≠ c → b ≠ d →
  exec (AddLinkPair c d) (exec (AddLinkPair a b) this)
  = exec (AddLinkPair a b) (exec (AddLinkPair c d) this).
Proof.
  intros Hac Had Hbc Hbd. rewrite !AddLinkPair_exec.
  destruct this as [w s n r p q x m]. unfold set_contactPairs; simpl. f_equal.
  apply map_eq; intros k. rewrite !lookup_std_insert.
  destruct (m !! k); [done|]. repeat case_decide; congruence.
Qed.

Lemma AddLinkPair_disjoint_comm_witness :
  (1 ≠ 3)%N ∧ (1 ≠ 4)%N ∧ (2 ≠ 3)%N ∧ (2 ≠ 4)%N
  ∧ exec (AddLinkPair 3 4) (exec (AddLinkPair 1 2) engine0)
    = exec (AddLinkPair 1 2) (exec (AddLinkPair 3 4) engine0).
Proof.
  repeat (split; [discriminate|]).
  apply (AddLinkPair_disjoint_comm 1 2 3 4 engine0); discriminate.
Defined.

(** A call adds at most two entries and removes none. *)
Lemma AddLinkPair_size (a b : LinkPtr) (this : PhysicsEngine) :
  size (contactPairs this) ≤ size (contactPairs (exec (AddLinkPair a b) this))
  ≤ size (contactPairs this) + 2.
Proof.
  rewrite AddLinkPair_exec. destruct this as [w s n r p q x m]; simpl.
  assert (∀ k v (m' : gmap N N),
            size m' ≤ size (std_map.insert (k, v) m') ≤ size m' + 1) as Hstep.
  { intros k v m'. unfold std_map.insert; simpl.
    destruct (m' !! k) eqn:E; [lia|].
    rewrite map_size_insert_None by done. lia. }
  pose proof (Hstep a b m).
  pose proof (Hstep b a (std_map.insert (a, b) m)). lia.
Qed.

(** X13: The registry never shrinks, and n calls add at most 2n entries to it. *)
Theorem AddLinkPairs_size (calls : list (LinkPtr * LinkPtr)) (this : PhysicsEngine) :
  size (contactPairs this) ≤ size (contactPairs (AddLinkPairs calls this))
  ≤ size (contactPairs this) + 2 * length calls.
Proof.
  revert this. induction calls as [|[x y] calls IH]; intros this; simpl.
  - lia.
  - pose proof (IH (exec (AddLinkPair x y) this)).
    pose proof (AddLinkPair_size x y this). lia.
Qed.

(** * Further properties of the base class *)

Lemma AddLinkPairs_members (calls : list (LinkPtr * LinkPtr)) (this : PhysicsEngine) :
  world (AddLinkPairs calls this) = world this
  ∧ sdf (AddLinkPairs calls this) = sdf this
  ∧ node (AddLinkPairs calls this) = node this
  ∧ responsePub (AddLinkPairs calls this) = responsePub this
  ∧ physicsSub (AddLinkPairs calls this) = physicsSub this
  ∧ requestSub (AddLinkPairs calls this) = requestSub this
  ∧ rayMutex (AddLinkPairs calls this) = rayMutex this.
Proof.
  revert this. induction calls as [|[x y] calls IH]; intros this; simpl.
  - done.
  - destruct (IH (exec (AddLinkPair x y) this)) as (-> & -> & -> & -> & -> & -> & ->).
    rewrite AddLinkPair_exec. by destruct this.
Qed.

Lemma base_calls_AddLinkPairs (calls : list BaseCall) (this : PhysicsEngine) :
  base_calls calls this = AddLinkPairs (pairs_of calls) this.
Proof.
  revert this. induction calls as [|c calls IH]; intros this; simpl; [done|].
  destruct c; simpl; apply IH.
Qed.

(** X14: Among the inline members of the base class that return nothing, only
    [AddLinkPair] has an effect: a run of calls of [Reset], [UpdatePhysics],
    the parameter setters, the message handlers and [AddLinkPair] leaves the
    engine that its [AddLinkPair] calls alone leave.  [Reset] in particular
    does not empty the registry. *)
Theorem base_calls_only_AddLinkPair (calls : list BaseCall) (this : PhysicsEngine) :
  base_calls calls this = AddLinkPairs (pairs_of calls) this.
Proof. apply base_calls_AddLinkPairs. Qed.

(** X15: No such run changes a member of the engine other than [contactPairs],
    and [GetRayMutex], which changes nothing either, returns the same
    pointer after the run as before. *)
Theorem base_calls_members (calls : list BaseCall) (this : PhysicsEngine) :
  world (base_calls calls this) = world this
  ∧ sdf (base_calls calls this) = sdf this
  ∧ node (base_calls calls this) = node this
  ∧ responsePub (base_calls calls this) = responsePub this
  ∧ physicsSub (base_calls calls this) = physicsSub this
  ∧ requestSub (base_calls calls this) = requestSub this
  ∧ rayMutex (base_calls calls this) = rayMutex this
  ∧ eval GetRayMutex (base_calls calls this) = eval GetRayMutex this
  ∧ exec GetRayMutex (base_calls calls this) = base_calls calls this.
Proof.
  rewrite base_calls_AddLinkPairs.
  destruct (AddLinkPairs_members (pairs_of calls) this)
    as (Hw & Hs & Hn & Hr & Hp & Hq & Hx).
  repeat split; done.
Qed.

(** * Further properties of the Bullet joint *)

Lemma Bullet_call_effect (c : Bullet.Call) (env : Bullet.Env) :
  Bullet.this_joint (exec (Bullet.call c) env) = Bullet.this_joint env
  ∧ Bullet.console_err (exec (Bullet.call c) env)
    = Bullet.console_err env
      ++ (if Bullet.logs c then [Bullet.not_implemented] else [])
  ∧ (eval (Bullet.call c) env = None
     ∨ eval (Bullet.call c) env = Some (math.mkVector3 0 0 0)).
Proof.
  destruct c; simpl; repeat split; try (by left); try (by right).
  cbn. by rewrite app_nil_r.
Qed.

Lemma Bullet_calls_cons (c : Bullet.Call) (cs : list Bullet.Call) (env : Bullet.Env) :
  exec (Bullet.calls (c :: cs)) env
  = exec (Bullet.calls cs) (exec (Bullet.call c) env)
  ∧ eval (Bullet.calls (c :: cs)) env
    = eval (Bullet.call c) env
      :: eval (Bullet.calls cs) (exec (Bullet.call c) env).
Proof.
  unfold exec, eval; simpl. unfold mbind, Method_bind, bind.
  destruct (Bullet.call c env) as [r env1]; simpl.
  by destruct (Bullet.calls cs env1) as [rs env2].
Qed.

(** X16: Whatever inline members of the joint are called, in whatever order and
    with whatever arguments, the joint is as it was, the error console has
    received one "Not implement in Bullet" line for each call other than
    [Reset] and nothing else, and each call returned nothing or the zero
    vector. *)
Theorem Bullet_calls_effect (cs : list Bullet.Call) (env : Bullet.Env) :
  Bullet.this_joint (exec (Bullet.calls cs) env) = Bullet.this_joint env
  ∧ Bullet.console_err (exec (Bullet.calls cs) env)
    = Bullet.console_err env
      ++ replicate (length (List.filter Bullet.logs cs)) Bullet.not_implemented
  ∧ Forall (λ r, r = None ∨ r = Some (math.mkVector3 0 0 0))
      (eval (Bullet.calls cs) env).
Proof.
  revert env. induction cs as [|c cs IH]; intros env.
  - simpl. repeat split; [by rewrite app_nil_r | constructor].
  - destruct (Bullet_calls_cons c cs env) as [-> ->].
    destruct (IH (exec (Bullet.call c) env)) as (-> & -> & Hrs).
    destruct (Bullet_call_effect c env) as (-> & -> & Hr).
    split; [done|]. split; [|by constructor].
    rewrite <- app_assoc. f_equal. simpl.
    by destruct (Bullet.logs c).
Qed.
